(** * The game registry of ai-battle-arena

    A shallow embedding of [src/games/types.ts] and [src/games/registry.ts]:
    the [GameEngine] contract, the module-level [gameRegistry] (a JavaScript
    [Map] from identifier to engine) and the three exported functions
    [registerGame], [getGame] and [getAllGames].

    A JavaScript [Map] iterates its entries in the order in which their keys
    were first inserted, and [Map.prototype.set] on a key that is already
    present replaces the value where the key stands.  A [gmap] forgets that
    order, so the map is embedded as the list of its entries. *)

From stdpp Require Import base option list strings gmap.

(** ** [src/games/types.ts] *)

(** [GameStatus]: the union of [{ result: 'ongoing' }],
    [{ result: 'win'; winner: string }] and [{ result: 'draw' }]. *)
Inductive GameStatus : Type :=
  | ongoing
  | win (winner : string)
  | draw.

(** [GameEngine<TState, TMove>].  [ComponentType] stands for React's type of
    the same name, which the registry never inspects.  The registry stores
    and returns engines without reading or writing any field but [id], so an
    engine is embedded as the value of its fields, and "the same engine" is
    equality of these values. *)
Record GameEngine (TState TMove ComponentType : Type) : Type := {
  id : string;
  name : string;
  getInitialState : unit -> TState;
  validateMove : TState -> TMove -> bool;
  applyMove : TState -> TMove -> TState;
  getStatus : TState -> GameStatus;
  serializeState : TState -> string;
  renderBoard : ComponentType;
  buildPrompt : TState -> list TMove -> string
}.

Arguments id {_ _ _} _.
Arguments name {_ _ _} _.
Arguments getInitialState {_ _ _} _ _.
Arguments validateMove {_ _ _} _ _ _.
Arguments applyMove {_ _ _} _ _ _.
Arguments getStatus {_ _ _} _ _.
Arguments serializeState {_ _ _} _ _.
Arguments renderBoard {_ _ _} _.
Arguments buildPrompt {_ _ _} _ _ _.

(** ** The JavaScript [Map] with string keys *)

Module JSMap.
Section JSMap.
Context {V : Type}.

(** The entries, oldest key first. *)
Definition t : Type := list (string * V).

(** [new Map()] *)
Definition empty : t := [].

(** [m.set(k, v)]: an entry whose key is [k] has its value replaced where
    it stands; otherwise the entry [(k, v)] is appended. *)
Fixpoint set (k : string) (v : V) (m : t) : t :=
  match m with
  | [] => [(k, v)]
  | (k', v') :: rest =>
      if String.eqb k' k then (k', v) :: rest
      else (k', v') :: set k v rest
  end.

(** [m.get(k)]: the value of the entry whose key is [k], [None] (the
    embedding of [undefined]) when there is none. *)
Fixpoint get (k : string) (m : t) : option V :=
  match m with
  | [] => None
  | (k', v') :: rest => if String.eqb k' k then Some v' else get k rest
  end.

(** [m.keys()] and [m.values()], in iteration order. *)
Definition keys (m : t) : list string := m.*1.
Definition values (m : t) : list V := m.*2.

(** [m.size] *)
Definition size (m : t) : nat := length m.
End JSMap.
Arguments t : clear implicits.
End JSMap.

(** [Array.from(iterable)] on an iterator that yields the elements of [l]. *)
Definition Array_from {A : Type} (l : list A) : list A := l.

(** ** Completions and the state of the module *)

(** How a call ends: normally with a value, or abruptly with a thrown
    error. *)
Inductive Completion (A : Type) : Type :=
  | Normal (a : A)
  | Throw (error : string).
Arguments Normal {A} a.
Arguments Throw {A} error.

Section Registry.
Context {TState TMove ComponentType : Type}.

Abbreviation Engine := (GameEngine TState TMove ComponentType).

(** The value of the module-level constant [gameRegistry]. *)
Definition Registry : Type := JSMap.t Engine.

(** A computation that reads and updates [gameRegistry]. *)
Definition Eff (A : Type) : Type := Registry -> Completion (A * Registry).

Definition ret {A : Type} (a : A) : Eff A := fun s => Normal (a, s).

Definition bind {A B : Type} (c : Eff A) (f : A -> Eff B) : Eff B :=
  fun s =>
    match c s with
    | Normal (a, s') => f a s'
    | Throw e => Throw e
    end.

#[global] Instance Eff_ret : MRet Eff := @ret.
#[global] Instance Eff_bind : MBind Eff := fun A B f c => bind c f.

Definition gets {A : Type} (f : Registry -> A) : Eff A :=
  fun s => Normal (f s, s).

Definition modify (f : Registry -> Registry) : Eff unit :=
  fun s => Normal (tt, f s).

(** [const gameRegistry = new Map<string, GameEngine>();] *)
Definition gameRegistry : Registry := JSMap.empty.

(** ** [src/games/registry.ts] *)

(** [gameRegistry.set(engine.id, engine);] *)
Definition registerGame (engine : Engine) : Eff unit :=
  modify (JSMap.set (id engine) engine).

(** [return gameRegistry.get(id);] *)
Definition getGame (id : string) : Eff (option Engine) :=
  gets (JSMap.get id).

(** [return Array.from(gameRegistry.values());] *)
Definition getAllGames : Eff (list Engine) :=
  gets (fun m => Array_from (JSMap.values m)).

(** ** Sequences of calls *)

Inductive Call : Type :=
  | CallRegisterGame (engine : Engine)
  | CallGetGame (id : string)
  | CallGetAllGames.

Inductive Returned : Type :=
  | RetVoid
  | RetGame (found : option Engine)
  | RetGames (games : list Engine).

Definition call (c : Call) : Eff Returned :=
  match c with
  | CallRegisterGame engine => registerGame engine;; mret RetVoid
  | CallGetGame id => g ← getGame id; mret (RetGame g)
  | CallGetAllGames => gs ← getAllGames; mret (RetGames gs)
  end.

(** The calls of [cs] one after the other, with what each returned. *)
Fixpoint run (cs : list Call) : Eff (list Returned) :=
  match cs with
  | [] => mret []
  | c :: rest => r ← call c; rs ← run rest; mret (r :: rs)
  end.

(** ** What a sequence of calls registered *)

(** The engines handed to [registerGame], in call order. *)
Fixpoint registrations (cs : list Call) : list Engine :=
  match cs with
  | [] => []
  | CallRegisterGame engine :: rest => engine :: registrations rest
  | _ :: rest => registrations rest
  end.

(** The engine of the last registration under identifier [k]. *)
Fixpoint last_registered (k : string) (es : list Engine) : option Engine :=
  match es with
  | [] => None
  | e :: rest =>
      match last_registered k rest with
      | Some e' => Some e'
      | None => if String.eqb (id e) k then Some e else None
      end
  end.

(** The identifiers of [ks] without repetition, each at the place of its
    first occurrence; [seen] are identifiers met before. *)
Fixpoint first_seen (seen ks : list string) : list string :=
  match ks with
  | [] => []
  | k :: rest =>
      if bool_decide (k ∈ seen) then first_seen seen rest
      else k :: first_seen (k :: seen) rest
  end.

Definition first_ids (ks : list string) : list string := first_seen [] ks.

(** The registry [s] after the registrations [es], one [Map.prototype.set]
    each. *)
Definition register_all (es : list Engine) (s : Registry) : Registry :=
  foldl (fun m e => JSMap.set (id e) e m) s es.

End Registry.

(** ** Engines of the scenarios

    The scenarios register engines by identifier only; their game logic is
    never called, so the state, move and component types are [unit]. *)

Definition scenarioEngine (i n : string) : GameEngine unit unit unit :=
  {| id := i;
     name := n;
     getInitialState := fun _ => tt;
     validateMove := fun _ _ => true;
     applyMove := fun _ _ => tt;
     getStatus := fun _ => ongoing;
     serializeState := fun _ => EmptyString;
     renderBoard := tt;
     buildPrompt := fun _ _ => EmptyString |}.

Definition chessA : GameEngine unit unit unit := scenarioEngine "chess" "Chess".
Definition chessB : GameEngine unit unit unit := scenarioEngine "chess" "Chess II".
Definition checkers : GameEngine unit unit unit :=
  scenarioEngine "checkers" "Checkers".

(** * Facts about the [Map] *)

Section JSMapFacts.
Context {V : Type}.
Implicit Types (m : JSMap.t V) (k : string) (v : V).

Lemma get_set_eq k v m : JSMap.get k (JSMap.set k v m) = Some v.
Proof.
  induction m as [|[k' v'] rest IH]; simpl.
  - by rewrite String.eqb_refl.
  - destruct (String.eqb_spec k' k) as [->|Hne]; simpl.
    + by rewrite String.eqb_refl.
    + by destruct (String.eqb_spec k' k).
Qed.

Lemma get_set_ne k k' v m :
  k ≠ k' -> JSMap.get k' (JSMap.set k v m) = JSMap.get k' m.
Proof.
  intros Hne. induction m as [|[k0 v0] rest IH]; simpl.
  - by destruct (String.eqb_spec k k').
  - destruct (String.eqb_spec k0 k) as [->|Hk0]; simpl.
    + by destruct (String.eqb_spec k k').
    + by rewrite IH.
Qed.

Lemma get_None k m : JSMap.get k m = None <-> k ∉ JSMap.keys m.
Proof.
  unfold JSMap.keys. induction m as [|[k' v'] rest IH]; simpl.
  - split; [intros _; apply not_elem_of_nil | done].
  - rewrite not_elem_of_cons.
    destruct (String.eqb_spec k' k) as [->|Hne].
    + split; [done | by intros [? _]].
    + rewrite IH. split; [by intros ? | by intros [_ ?]].
Qed.

Lemma get_Some_keys k m : is_Some (JSMap.get k m) <-> k ∈ JSMap.keys m.
Proof.
  rewrite <- not_eq_None_Some, get_None.
  destruct (decide (k ∈ JSMap.keys m)); naive_solver.
Qed.

Lemma get_Some_entry k v m : JSMap.get k m = Some v -> (k, v) ∈ m.
Proof.
  induction m as [|[k' v'] rest IH]; simpl; [done|].
  destruct (String.eqb_spec k' k) as [->|Hne].
  - intros [= ->]. apply list_elem_of_here.
  - intros H. apply list_elem_of_further. auto.
Qed.

Lemma entry_set k v k' v' m :
  (k', v') ∈ JSMap.set k v m -> (k', v') = (k, v) \/ (k', v') ∈ m.
Proof.
  induction m as [|[k0 v0] rest IH]; simpl.
  - rewrite list_elem_of_singleton. auto.
  - destruct (String.eqb_spec k0 k) as [->|Hne]; rewrite !elem_of_cons.
    + intros [?|?]; auto.
    + intros [?|?]; [auto|]. destruct IH; auto.
Qed.

Lemma keys_set k v m :
  JSMap.keys (JSMap.set k v m) =
  if bool_decide (k ∈ JSMap.keys m) then JSMap.keys m else JSMap.keys m ++ [k].
Proof.
  unfold JSMap.keys. induction m as [|[k' v'] rest IH].
  - rewrite bool_decide_eq_false_2; [done | apply not_elem_of_nil].
  - cbn [JSMap.set]. rewrite !fmap_cons. cbn [fst].
    destruct (String.eqb_spec k' k) as [->|Hne]; rewrite ?fmap_cons; cbn [fst].
    + rewrite bool_decide_eq_true_2; [done | apply list_elem_of_here].
    + rewrite IH. case_bool_decide as Hin.
      * rewrite bool_decide_eq_true_2; [done | by apply list_elem_of_further].
      * rewrite bool_decide_eq_false_2; [done|].
        rewrite not_elem_of_cons. by split; [intros ->|].
Qed.

Lemma size_values m : length (JSMap.values m) = JSMap.size m.
Proof. unfold JSMap.values, JSMap.size. apply length_fmap. Qed.

Lemma size_keys m : length (JSMap.keys m) = JSMap.size m.
Proof. unfold JSMap.keys, JSMap.size. apply length_fmap. Qed.

Lemma NoDup_keys_set k v m :
  NoDup (JSMap.keys m) -> NoDup (JSMap.keys (JSMap.set k v m)).
Proof.
  intros Hnd. rewrite keys_set. case_bool_decide as Hin; [done|].
  apply NoDup_app. split_and!; [done| |apply NoDup_singleton].
  intros x Hx. rewrite list_elem_of_singleton. by intros ->.
Qed.

Lemma values_set_fresh k v m :
  k ∉ JSMap.keys m -> JSMap.values (JSMap.set k v m) = JSMap.values m ++ [v].
Proof.
  unfold JSMap.keys, JSMap.values.
  induction m as [|[k' v'] rest IH]; csimpl; [done|].
  rewrite not_elem_of_cons. intros [Hne Hnin].
  destruct (String.eqb_spec k' k) as [->|_]; [done|].
  csimpl. f_equal. by apply IH.
Qed.

Lemma values_set_present k v m i :
  NoDup (JSMap.keys m) -> JSMap.keys m !! i = Some k ->
  JSMap.values (JSMap.set k v m) = <[i:=v]> (JSMap.values m).
Proof.
  unfold JSMap.keys, JSMap.values. revert i.
  induction m as [|[k' v'] rest IH]; intros i; csimpl; [done|].
  rewrite NoDup_cons. intros [Hnin Hnd] Hi.
  destruct (String.eqb_spec k' k) as [->|Hne].
  - destruct i as [|j]; [done|]. simpl in Hi.
    apply list_elem_of_lookup_2 in Hi. done.
  - destruct i as [|j]; simpl in Hi; [congruence|].
    csimpl. f_equal. by apply IH.
Qed.

Lemma lookup_entry_get k v m i :
  NoDup (JSMap.keys m) -> m !! i = Some (k, v) -> JSMap.get k m = Some v.
Proof.
  unfold JSMap.keys. revert i.
  induction m as [|[k' v'] rest IH]; intros i; csimpl; [done|].
  rewrite NoDup_cons. intros [Hnin Hnd] Hi.
  destruct i as [|j]; simpl in Hi.
  - injection Hi as -> ->. by rewrite String.eqb_refl.
  - destruct (String.eqb_spec k' k) as [->|Hne]; [|by eapply IH].
    exfalso. apply Hnin. apply list_elem_of_lookup_2 in Hi.
    by apply (list_elem_of_fmap_2 fst) in Hi.
Qed.

(** What [m.values()] yields is what [m.get] finds under each key, in key
    order. *)
Lemma values_get (l : list (string * V)) :
  NoDup (JSMap.keys l) ->
  Some <$> JSMap.values l = (fun k => JSMap.get k l) <$> JSMap.keys l.
Proof.
  intros Hnd. apply list_eq. intros i.
  unfold JSMap.values, JSMap.keys. rewrite !list_lookup_fmap.
  destruct (l !! i) as [[k e]|] eqn:Hi; [|done].
  cbn. f_equal. symmetry. by eapply lookup_entry_get.
Qed.

End JSMapFacts.

(** * Facts about the registry *)

Section RegistryFacts.
Context {TState TMove ComponentType : Type}.

Abbreviation Eng := (GameEngine TState TMove ComponentType).
Abbreviation Reg := (@Registry TState TMove ComponentType).

Implicit Types (e : Eng) (es : list Eng) (s : Reg) (k : string).

(** ** Identifiers in order of first occurrence *)

Lemma first_seen_elem (seen ks : list string) (x : string) :
  x ∈ first_seen seen ks <-> x ∈ ks /\ x ∉ seen.
Proof.
  revert seen. induction ks as [|k rest IH]; intros seen; cbn [first_seen].
  - rewrite elem_of_nil. tauto.
  - case_bool_decide as Hk.
    + rewrite IH, elem_of_cons. split; [tauto|].
      intros [[->|?] ?]; [done | tauto].
    + rewrite !elem_of_cons, IH, not_elem_of_cons.
      destruct (decide (x = k)) as [->|Hne]; tauto.
Qed.

Lemma first_seen_NoDup (seen ks : list string) : NoDup (first_seen seen ks).
Proof.
  revert seen. induction ks as [|k rest IH]; intros seen; cbn [first_seen].
  - apply NoDup_nil_2.
  - case_bool_decide as Hk; [apply IH|].
    apply NoDup_cons. split; [|apply IH].
    rewrite first_seen_elem, not_elem_of_cons. tauto.
Qed.

Lemma first_seen_snoc (seen ks : list string) (k : string) :
  first_seen seen (ks ++ [k]) =
  first_seen seen ks ++ (if bool_decide (k ∈ seen ++ ks) then [] else [k]).
Proof.
  revert seen. induction ks as [|a rest IH]; intros seen.
  - rewrite app_nil_r. cbn [app first_seen]. by case_bool_decide.
  - rewrite <- app_comm_cons. cbn [first_seen]. case_bool_decide as Ha.
    + rewrite IH. f_equal.
      rewrite (bool_decide_ext (k ∈ seen ++ rest) (k ∈ seen ++ a :: rest));
        [done|].
      rewrite !elem_of_app, elem_of_cons. split; [tauto|].
      intros [?|[->|?]]; tauto.
    + rewrite IH, <- app_comm_cons. f_equal. f_equal.
      rewrite (bool_decide_ext (k ∈ (a :: seen) ++ rest)
                 (k ∈ seen ++ a :: rest)); [done|].
      rewrite !elem_of_app, !elem_of_cons. tauto.
Qed.

Lemma first_ids_elem (ks : list string) (x : string) :
  x ∈ first_ids ks <-> x ∈ ks.
Proof.
  unfold first_ids. rewrite first_seen_elem.
  pose proof (not_elem_of_nil x). tauto.
Qed.

Lemma first_ids_NoDup (ks : list string) : NoDup (first_ids ks).
Proof. apply first_seen_NoDup. Qed.

Lemma first_ids_snoc (ks : list string) (k : string) :
  first_ids (ks ++ [k]) =
  if bool_decide (k ∈ first_ids ks) then first_ids ks else first_ids ks ++ [k].
Proof.
  unfold first_ids at 1. rewrite first_seen_snoc. fold (first_ids ks).
  rewrite app_nil_l.
  rewrite (bool_decide_ext (k ∈ ks) (k ∈ first_ids ks))
    by (symmetry; apply first_ids_elem).
  case_bool_decide; [apply app_nil_r | done].
Qed.

(** ** The last registration under an identifier *)

Lemma last_registered_snoc k es e :
  last_registered k (es ++ [e]) =
  if String.eqb (id e) k then Some e else last_registered k es.
Proof.
  induction es as [|e' rest IH]; cbn [app last_registered].
  - by destruct (String.eqb (id e) k).
  - rewrite IH. by destruct (String.eqb (id e) k).
Qed.

Lemma last_registered_None k es :
  last_registered k es = None <-> k ∉ id <$> es.
Proof.
  induction es as [|e rest IH]; csimpl.
  - pose proof (not_elem_of_nil k). tauto.
  - rewrite not_elem_of_cons, <- IH.
    destruct (last_registered k rest) as [e'|].
    + split; [done | by intros [_ ?]].
    + destruct (String.eqb_spec (id e) k) as [<-|Hne].
      * split; [done | by intros [? _]].
      * split; [intros _; split; [congruence | done] | done].
Qed.

Lemma last_registered_Some k es e :
  last_registered k es = Some e -> id e = k /\ e ∈ es.
Proof.
  induction es as [|e' rest IH]; cbn [last_registered]; [done|].
  destruct (last_registered k rest) as [e''|].
  - intros [= ->]. destruct IH as [? ?]; [done|].
    split; [done | by apply list_elem_of_further].
  - destruct (String.eqb_spec (id e') k) as [<-|Hne]; [|done].
    intros [= ->]. split; [done | apply list_elem_of_here].
Qed.

(** ** The registry after a list of registrations *)

Lemma register_all_snoc es e s :
  register_all (es ++ [e]) s = JSMap.set (id e) e (register_all es s).
Proof. unfold register_all. by rewrite foldl_snoc. Qed.

Lemma keys_register_all es :
  JSMap.keys (register_all es gameRegistry) = first_ids (id <$> es).
Proof.
  induction es as [|e es IH] using rev_ind; [done|].
  rewrite register_all_snoc, keys_set, IH, fmap_app. csimpl.
  by rewrite first_ids_snoc.
Qed.

Lemma NoDup_register_all es :
  NoDup (JSMap.keys (register_all es gameRegistry)).
Proof. rewrite keys_register_all. apply first_ids_NoDup. Qed.

Lemma get_register_all k es :
  JSMap.get k (register_all es gameRegistry) = last_registered k es.
Proof.
  induction es as [|e es IH] using rev_ind; [done|].
  rewrite register_all_snoc, last_registered_snoc.
  destruct (String.eqb_spec (id e) k) as [<-|Hne].
  - apply get_set_eq.
  - by rewrite get_set_ne.
Qed.

Lemma entry_register_all k e es :
  (k, e) ∈ register_all es gameRegistry -> id e = k.
Proof.
  revert k e. induction es as [|e' es IH] using rev_ind; intros k e.
  - intros H. by apply elem_of_nil in H.
  - rewrite register_all_snoc. intros H.
    apply entry_set in H as [[= -> ->]|H]; [done | by apply IH].
Qed.

(** The stored key of every entry is the identifier of the stored engine. *)
Lemma keys_values_register_all es :
  JSMap.keys (register_all es gameRegistry) =
  id <$> JSMap.values (register_all es gameRegistry).
Proof.
  pose proof (fun k e => entry_register_all k e es) as Hent.
  unfold JSMap.keys, JSMap.values.
  induction (register_all es gameRegistry) as [|[k e] rest IH]; [done|].
  csimpl. f_equal.
  - symmetry. apply Hent, list_elem_of_here.
  - apply IH. intros k' e' H. by apply Hent, list_elem_of_further.
Qed.

(** ** Running calls *)

Lemma bind_Normal {A B : Type} (c : Eff A) (f : A -> Eff B) s (a : A) s' :
  c s = Normal (a, s') -> (c ≫= f) s = f a s'.
Proof. intros H. unfold mbind, Eff_bind, bind. by rewrite H. Qed.

Lemma ret_Normal {A : Type} (a : A) s : (mret a : Eff A) s = Normal (a, s).
Proof. done. Qed.

Lemma registerGame_Normal e s :
  registerGame e s = Normal (tt, JSMap.set (id e) e s).
Proof. done. Qed.

Lemma getGame_Normal k s : getGame k s = Normal (JSMap.get k s, s).
Proof. done. Qed.

Lemma getAllGames_Normal s : getAllGames s = Normal (JSMap.values s, s).
Proof. done. Qed.

Lemma call_Normal (c : @Call TState TMove ComponentType) s :
  exists r, call c s = Normal (r, register_all (registrations [c]) s).
Proof.
  destruct c as [e|k|]; cbn [call].
  - exists RetVoid. by rewrite (bind_Normal _ _ _ _ _ (registerGame_Normal e s)).
  - exists (RetGame (JSMap.get k s)).
    by rewrite (bind_Normal _ _ _ _ _ (getGame_Normal k s)).
  - exists (RetGames (JSMap.values s)).
    by rewrite (bind_Normal _ _ _ _ _ (getAllGames_Normal s)).
Qed.

Lemma run_register_all (cs : list (@Call TState TMove ComponentType)) s :
  exists rs, run cs s = Normal (rs, register_all (registrations cs) s).
Proof.
  revert s. induction cs as [|c rest IH]; intros s.
  - by exists [].
  - destruct (call_Normal c s) as [r Hr].
    destruct (IH (register_all (registrations [c]) s)) as [rs Hrs].
    exists (r :: rs). cbn [run].
    rewrite (bind_Normal _ _ _ _ _ Hr), (bind_Normal _ _ _ _ _ Hrs).
    rewrite ret_Normal. do 2 f_equal. by destruct c.
Qed.

End RegistryFacts.

(** * The specified behaviour *)

Section Specification.
Context {TState TMove ComponentType : Type}.

Abbreviation GEngine := (GameEngine TState TMove ComponentType).
Abbreviation GRegistry := (@Registry TState TMove ComponentType).
Abbreviation GCall := (@Call TState TMove ComponentType).

Implicit Types (e : GEngine) (s : GRegistry) (k : string) (cs : list GCall).

(** C1: for every engine [e], [registerGame(e)] followed by
    [getGame(e.id)] returns the engine just registered, whose identifier is
    [e.id]. *)
Theorem registerGame_then_getGame e s :
  exists g s',
    (registerGame e;; getGame (id e)) s = Normal (Some g, s') /\
    g = e /\ id g = id e.
Proof.
  exists e, (JSMap.set (id e) e s).
  rewrite (bind_Normal _ _ _ _ _ (registerGame_Normal e s)).
  rewrite getGame_Normal, get_set_eq. done.
Qed.

(** C2: when [A] and [B] have the same identifier, registering [A], then
    making any calls [cs], then registering [B] makes [getGame] on that
    identifier return [B] and not [A]; the overwriting [registerGame]
    returns normally with no value, as every [registerGame] does. *)
Theorem registerGame_overwrites (A B : GEngine) cs s :
  id A = id B ->
  (forall s2, exists s3, registerGame B s2 = Normal (tt, s3)) /\
  exists s',
    (registerGame A;; run cs;; registerGame B;; getGame (id A)) s
      = Normal (Some B, s') /\
    (A <> B ->
     (registerGame A;; run cs;; registerGame B;; getGame (id A)) s
       <> Normal (Some A, s')).
Proof.
  intros HAB. split; [intros s2; eexists; apply registerGame_Normal|].
  destruct (run_register_all cs (JSMap.set (id A) A s)) as [rs Hrs].
  eexists.
  rewrite (bind_Normal _ _ _ _ _ (registerGame_Normal A s)).
  rewrite (bind_Normal _ _ _ _ _ Hrs).
  rewrite (bind_Normal _ _ _ _ _ (registerGame_Normal B _)).
  rewrite getGame_Normal, HAB, get_set_eq.
  split; [done | congruence].
Qed.

(** C3: after any calls that never registered the identifier [k],
    [getGame(k)] returns normally, with the absent value. *)
Theorem getGame_never_registered cs k :
  k ∉ id <$> registrations cs ->
  exists rs s,
    run cs gameRegistry = Normal (rs, s) /\ getGame k s = Normal (None, s).
Proof.
  intros Hk. destruct (run_register_all cs gameRegistry) as [rs Hrs].
  exists rs, (register_all (registrations cs) gameRegistry).
  split; [done|].
  rewrite getGame_Normal, get_register_all.
  by apply last_registered_None in Hk as ->.
Qed.

(** C4: after any calls, [getAllGames] returns as many engines as there are
    distinct identifiers among the registered engines. *)
Theorem getAllGames_size cs :
  exists rs s gs,
    run cs gameRegistry = Normal (rs, s) /\
    getAllGames s = Normal (gs, s) /\
    length gs = size (list_to_set (id <$> registrations cs) : gset string).
Proof.
  destruct (run_register_all cs gameRegistry) as [rs Hrs].
  set (es := registrations cs) in *.
  exists rs, (register_all es gameRegistry).
  exists (JSMap.values (register_all es gameRegistry)).
  split_and!; [done..|].
  rewrite size_values, <- size_keys, keys_register_all.
  rewrite <- (size_list_to_set (C:=gset string)) by apply first_ids_NoDup.
  f_equal. apply set_eq. intros x.
  by rewrite !elem_of_list_to_set, first_ids_elem.
Qed.

(** C5: after any calls, no two stored engines have the same identifier,
    every engine is stored under its own identifier, and the engine stored
    for an identifier is the one of the last registration with it. *)
Theorem registry_invariant cs :
  exists rs s,
    run cs gameRegistry = Normal (rs, s) /\
    NoDup (JSMap.keys s) /\
    (forall i j e1 e2,
       JSMap.values s !! i = Some e1 -> JSMap.values s !! j = Some e2 ->
       id e1 = id e2 -> i = j) /\
    (forall k' e', (k', e') ∈ s ->
       k' = id e' /\ last_registered k' (registrations cs) = Some e').
Proof.
  destruct (run_register_all cs gameRegistry) as [rs Hrs].
  set (es := registrations cs) in *.
  exists rs, (register_all es gameRegistry).
  pose proof (NoDup_register_all es) as Hnd.
  split_and!; [done..| |].
  - intros i j e1 e2 Hi Hj Hid.
    apply (NoDup_lookup _ i j (id e1) Hnd); rewrite keys_values_register_all.
    + by rewrite list_lookup_fmap, Hi.
    + by rewrite list_lookup_fmap, Hj, Hid.
  - intros k' e' Hin. split; [symmetry; by eapply entry_register_all|].
    rewrite <- get_register_all.
    apply list_elem_of_lookup_1 in Hin as [i Hi].
    by eapply lookup_entry_get.
Qed.

(** C6: on every engine, identifier and registry, [registerGame], [getGame]
    and [getAllGames] return normally, and so does every sequence of calls
    to them. *)
Theorem registry_total :
  (forall e s, exists s', registerGame e s = Normal (tt, s')) /\
  (forall k s, exists found, getGame k s = Normal (found, s)) /\
  (forall s, exists games, getAllGames s = Normal (games, s)) /\
  (forall cs s, exists rs s', run cs s = Normal (rs, s')).
Proof.
  split_and!.
  - intros e s. eexists. apply registerGame_Normal.
  - intros k s. eexists. apply getGame_Normal.
  - intros s. eexists. apply getAllGames_Normal.
  - intros cs s. destruct (run_register_all cs s) as [rs Hrs]. eauto.
Qed.

(** C7: after any calls, [getAllGames] returns exactly the engines that
    [getGame] finds, ordered by the first registration of their
    identifiers. *)
Theorem getAllGames_insertion_order cs :
  exists rs s gs,
    run cs gameRegistry = Normal (rs, s) /\
    getAllGames s = Normal (gs, s) /\
    id <$> gs = first_ids (id <$> registrations cs) /\
    (forall g, g ∈ gs <-> exists k', getGame k' s = Normal (Some g, s)) /\
    Some <$> gs =
      (fun k' => last_registered k' (registrations cs))
        <$> first_ids (id <$> registrations cs).
Proof.
  destruct (run_register_all cs gameRegistry) as [rs Hrs].
  set (es := registrations cs) in *.
  exists rs, (register_all es gameRegistry).
  exists (JSMap.values (register_all es gameRegistry)).
  pose proof (NoDup_register_all es) as Hnd.
  split_and!; [done..| | |].
  - by rewrite <- keys_values_register_all, keys_register_all.
  - intros g. split.
    + intros Hg. apply list_elem_of_fmap_1 in Hg as [[k' g'] [-> Hin]].
      apply list_elem_of_lookup_1 in Hin as [i Hi].
      exists k'. rewrite getGame_Normal. do 2 f_equal.
      by eapply lookup_entry_get.
    + intros [k' Hk']. rewrite getGame_Normal in Hk'.
      injection Hk' as Hk'. apply get_Some_entry in Hk'.
      by apply (list_elem_of_fmap_2 snd) in Hk'.
  - rewrite values_get, keys_register_all by done.
    apply list_fmap_ext. intros i k' _. apply get_register_all.
Qed.

(** C8: [getGame] returns normally and leaves the registry as it was, so
    the calls made after it return what they return without it. *)
Theorem getGame_pure k s :
  (exists found, getGame k s = Normal (found, s)) /\
  (forall cs, (getGame k;; run cs) s = run cs s) /\
  (forall k', (getGame k;; getGame k') s = getGame k' s) /\
  (getGame k;; getAllGames) s = getAllGames s.
Proof.
  split_and!.
  - eexists. apply getGame_Normal.
  - intros cs. by rewrite (bind_Normal _ _ _ _ _ (getGame_Normal k s)).
  - intros k'. by rewrite (bind_Normal _ _ _ _ _ (getGame_Normal k s)).
  - by rewrite (bind_Normal _ _ _ _ _ (getGame_Normal k s)).
Qed.

(** C9: [registerGame(e)] leaves what [getGame] returns for every
    identifier other than [e.id] as it was. *)
Theorem registerGame_frame e k s :
  k <> id e ->
  exists found s',
    getGame k s = Normal (found, s) /\
    registerGame e s = Normal (tt, s') /\
    getGame k s' = Normal (found, s').
Proof.
  intros Hne. exists (JSMap.get k s), (JSMap.set (id e) e s).
  split_and!; [done..|].
  rewrite getGame_Normal. by rewrite get_set_ne.
Qed.

(** C10: after any calls, registering an engine whose identifier is that of
    the engine at position [i] of [getAllGames] puts the new engine at
    position [i] and leaves every other position, and the length, as
    they were. *)
Theorem registerGame_keeps_position cs :
  exists rs s gs,
    run cs gameRegistry = Normal (rs, s) /\
    getAllGames s = Normal (gs, s) /\
    forall e i old,
      gs !! i = Some old -> id old = id e ->
      exists s',
        registerGame e s = Normal (tt, s') /\
        getAllGames s' = Normal (<[i:=e]> gs, s').
Proof.
  destruct (run_register_all cs gameRegistry) as [rs Hrs].
  set (es := registrations cs) in *.
  exists rs, (register_all es gameRegistry).
  exists (JSMap.values (register_all es gameRegistry)).
  split_and!; [done..|].
  intros e i old Hi Hid. eexists. split; [apply registerGame_Normal|].
  rewrite getAllGames_Normal.
  rewrite (values_set_present _ _ _ i); [done|apply NoDup_register_all|].
  by rewrite keys_values_register_all, list_lookup_fmap, Hi, <- Hid.
Qed.

End Specification.

(** * Scenarios *)

(** Register an engine with identifier ["chess"]: [getGame("chess")] returns
    it, [getGame("checkers")] returns nothing, and [getAllGames()] has one
    element. *)
Example scenario_single_engine :
  (registerGame chessA;;
   found ← getGame "chess"; missing ← getGame "checkers";
   games ← getAllGames; mret (found, missing, length games)) gameRegistry
  = Normal ((Some chessA, None, 1), [("chess"%string, chessA)]).
Proof. reflexivity. Qed.

(** Register [chessA], then [chessB] under the same identifier:
    [getGame("chess")] returns [chessB] and [getAllGames()] has one
    element. *)
Example scenario_same_identifier :
  (registerGame chessA;; registerGame chessB;;
   found ← getGame "chess"; games ← getAllGames;
   mret (found, length games)) gameRegistry
  = Normal ((Some chessB, 1), [("chess"%string, chessB)]).
Proof. reflexivity. Qed.

(** The two engines of that scenario are told apart by their names. *)
Example chessA_is_not_chessB : chessA <> chessB.
Proof. intros H. apply (f_equal name) in H. discriminate H. Qed.

(** A re-registered identifier stays where it was first registered. *)
Example scenario_order :
  (registerGame chessA;; registerGame checkers;; registerGame chessB;;
   getAllGames) gameRegistry
  = Normal ([chessB; checkers],
            [("chess"%string, chessB); ("checkers"%string, checkers)]).
Proof. reflexivity. Qed.

(** The overwrite of [chessA] by [chessB], with a registration of
    [checkers] and a lookup in between. *)
Lemma registerGame_overwrites_witness :
  id chessA = id chessB /\
  (forall s2, exists s3, registerGame chessB s2 = Normal (tt, s3)) /\
  exists s',
    (registerGame chessA;;
     run [CallRegisterGame checkers; CallGetGame "chess"];;
     registerGame chessB;; getGame (id chessA)) gameRegistry
      = Normal (Some chessB, s') /\
    (chessA <> chessB ->
     (registerGame chessA;;
      run [CallRegisterGame checkers; CallGetGame "chess"];;
      registerGame chessB;; getGame (id chessA)) gameRegistry
       <> Normal (Some chessA, s')).
Proof.
  split; [reflexivity|].
  exact (registerGame_overwrites chessA chessB
           [CallRegisterGame checkers; CallGetGame "chess"] gameRegistry
           eq_refl).
Defined.

(** ["checkers"] was never registered when only [chessA] was. *)
Lemma getGame_never_registered_witness :
  ("checkers"%string ∉ id <$> registrations [CallRegisterGame chessA]) /\
  exists rs s,
    run [CallRegisterGame chessA] gameRegistry = Normal (rs, s) /\
    getGame "checkers" s = Normal (None, s).
Proof.
  assert ("checkers"%string ∉ id <$> registrations [CallRegisterGame chessA])
    as Hk by (vm_compute; intros H; inversion H as [|? ? ? H']; inversion H').
  split; [exact Hk|].
  exact (getGame_never_registered [CallRegisterGame chessA] "checkers" Hk).
Defined.

(** Registering [chessB] leaves the lookup of ["checkers"] as it was. *)
Lemma registerGame_frame_witness :
  "checkers"%string <> id chessB /\
  exists found s',
    getGame "checkers" [("chess"%string, chessA); ("checkers"%string, checkers)]
      = Normal (found, [("chess"%string, chessA); ("checkers"%string, checkers)]) /\
    registerGame chessB
      [("chess"%string, chessA); ("checkers"%string, checkers)]
      = Normal (tt, s') /\
    getGame "checkers" s' = Normal (found, s').
Proof.
  assert ("checkers"%string <> id chessB) as Hne by discriminate.
  split; [exact Hne|].
  exact (registerGame_frame chessB "checkers"
           [("chess"%string, chessA); ("checkers"%string, checkers)] Hne).
Defined.

(** [chessB] takes the first position, that of [chessA], and [checkers]
    stays second. *)
Lemma registerGame_keeps_position_witness :
  exists s',
    (run [CallRegisterGame chessA; CallRegisterGame checkers];;
     registerGame chessB;; getAllGames) gameRegistry
    = Normal ([chessB; checkers], s').
Proof.
  destruct (registerGame_keeps_position
              [CallRegisterGame chessA; CallRegisterGame checkers])
    as (rs & s & gs & Hrun & Hall & Hpos).
  pose proof Hrun as Hrun'. vm_compute in Hrun'.
  injection Hrun' as _ <-.
  pose proof Hall as Hall'. vm_compute in Hall'. injection Hall' as <-.
  destruct (Hpos chessB 0 chessA eq_refl eq_refl) as (s' & Hreg & Hget).
  exists s'.
  rewrite (bind_Normal _ _ _ _ _ Hrun), (bind_Normal _ _ _ _ _ Hreg).
  exact Hget.
Defined.

(** * Further facts about the [Map] *)

Section JSMapComposition.
Context {V : Type}.
Implicit Types (m : JSMap.t V) (k : string) (v : V).

(** A second [set] on the same key leaves no trace of the first. *)
Lemma set_set k v1 v2 m :
  JSMap.set k v2 (JSMap.set k v1 m) = JSMap.set k v2 m.
Proof.
  induction m as [|[k' v'] rest IH]; cbn [JSMap.set].
  - by rewrite String.eqb_refl.
  - destruct (String.eqb_spec k' k) as [->|Hne]; cbn [JSMap.set].
    + by rewrite String.eqb_refl.
    + destruct (String.eqb_spec k' k); [done|]. by rewrite IH.
Qed.

(** [set] adds one entry when the key is new and none otherwise. *)
Lemma length_set k v m :
  length (JSMap.set k v m) =
  length m + match JSMap.get k m with Some _ => 0 | None => 1 end.
Proof.
  induction m as [|[k' v'] rest IH]; cbn [JSMap.set JSMap.get]; [done|].
  destruct (String.eqb_spec k' k) as [->|Hne]; cbn [length].
  - lia.
  - rewrite IH. lia.
Qed.

(** Two [set]s on different keys give the same entries in either order,
    up to their position. *)
Lemma set_commute_Permutation k1 k2 v1 v2 m :
  k1 <> k2 ->
  JSMap.set k1 v1 (JSMap.set k2 v2 m) ≡ₚ JSMap.set k2 v2 (JSMap.set k1 v1 m).
Proof.
  intros Hne. induction m as [|[k v] rest IH]; cbn [JSMap.set].
  - destruct (String.eqb_spec k2 k1) as [Heq|_]; [by subst|].
    destruct (String.eqb_spec k1 k2) as [Heq|_]; [by subst|].
    apply Permutation_swap.
  - destruct (String.eqb_spec k k2) as [E2|Hk2];
      destruct (String.eqb_spec k k1) as [E1|Hk1]; cbn [JSMap.set].
    + congruence.
    + destruct (String.eqb_spec k k1); [done|].
      by destruct (String.eqb_spec k k2).
    + destruct (String.eqb_spec k k2); [done|].
      by destruct (String.eqb_spec k k1).
    + destruct (String.eqb_spec k k1); [done|].
      destruct (String.eqb_spec k k2); [done|].
      by apply Permutation_skip.
Qed.

Lemma get_set k k' v m :
  JSMap.get k' (JSMap.set k v m) =
  if String.eqb k k' then Some v else JSMap.get k' m.
Proof.
  destruct (String.eqb_spec k k') as [<-|Hne].
  - apply get_set_eq.
  - by apply get_set_ne.
Qed.

End JSMapComposition.

(** * How the registry's functions compose *)

Section Composition.
Context {TState TMove ComponentType : Type}.

Abbreviation CEngine := (GameEngine TState TMove ComponentType).
Abbreviation CRegistry := (@Registry TState TMove ComponentType).
Abbreviation CCall := (@Call TState TMove ComponentType).

Implicit Types (e : CEngine) (es : list CEngine) (s : CRegistry).
Implicit Types (k : string) (cs : list CCall).

Lemma get_register_all_from k es s :
  JSMap.get k (register_all es s) =
  match last_registered k es with
  | Some e => Some e
  | None => JSMap.get k s
  end.
Proof.
  induction es as [|e es IH] using rev_ind; [done|].
  rewrite register_all_snoc, last_registered_snoc, get_set.
  by destruct (String.eqb (id e) k).
Qed.

Lemma registrations_register_calls es :
  registrations (CallRegisterGame <$> es) = es.
Proof. induction es as [|e es IH]; csimpl; [done | by rewrite IH]. Qed.

Lemma last_registered_distinct e es :
  NoDup (id <$> es) -> e ∈ es -> last_registered (id e) es = Some e.
Proof.
  induction es as [|e0 rest IH]; csimpl.
  - intros _ H. by apply elem_of_nil in H.
  - rewrite NoDup_cons. intros [Hnin Hnd] Hin.
    apply elem_of_cons in Hin as [->|Hrest].
    + apply last_registered_None in Hnin as ->.
      by rewrite String.eqb_refl.
    + by rewrite IH.
Qed.

Lemma values_register_all_distinct es :
  NoDup (id <$> es) -> JSMap.values (register_all es gameRegistry) = es.
Proof.
  induction es as [|e es IH] using rev_ind; [done|].
  rewrite fmap_app, NoDup_app. csimpl. intros (Hnd & Hdisj & _).
  rewrite register_all_snoc, values_set_fresh, IH; [done..|].
  rewrite keys_register_all, first_ids_elem. intros Hin.
  apply (Hdisj _ Hin), list_elem_of_here.
Qed.

(** X1: when [getGame(e.id)] finds nothing, [registerGame(e)] puts [e] after
    all the engines that [getAllGames] returned before. *)
Theorem registerGame_fresh_appends e s :
  getGame (id e) s = Normal (None, s) ->
  exists gs s',
    getAllGames s = Normal (gs, s) /\
    (registerGame e;; getAllGames) s = Normal (gs ++ [e], s').
Proof.
  rewrite getGame_Normal. intros [= Hnone]. apply get_None in Hnone.
  exists (JSMap.values s), (JSMap.set (id e) e s). split; [done|].
  rewrite (bind_Normal _ _ _ _ _ (registerGame_Normal e s)).
  by rewrite getAllGames_Normal, values_set_fresh.
Qed.

(** X2: [registerGame(e)] makes [getAllGames] one longer when [getGame(e.id)]
    found nothing before, and leaves its length as it was otherwise; it
    never makes it shorter. *)
Theorem registerGame_size e s :
  exists found gs gs' s',
    getGame (id e) s = Normal (found, s) /\
    getAllGames s = Normal (gs, s) /\
    (registerGame e;; getAllGames) s = Normal (gs', s') /\
    length gs' = length gs + match found with Some _ => 0 | None => 1 end.
Proof.
  exists (JSMap.get (id e) s), (JSMap.values s).
  exists (JSMap.values (JSMap.set (id e) e s)), (JSMap.set (id e) e s).
  split_and!; [done..|].
  rewrite !size_values. apply length_set.
Qed.

(** X3: registering [A] and at once [B] with the same identifier leaves the
    registry exactly as registering [B] alone does; in particular
    registering an engine twice is registering it once. *)
Theorem registerGame_absorbs (A B : CEngine) s :
  id A = id B ->
  (registerGame A;; registerGame B) s = registerGame B s.
Proof.
  intros HAB.
  rewrite (bind_Normal _ _ _ _ _ (registerGame_Normal A s)).
  by rewrite !registerGame_Normal, HAB, set_set.
Qed.

(** X4: after any calls, from any registry, [getGame(k)] returns the engine
    of the last of these calls that registered under [k], and what it
    returned before when there was none; an identifier once found is found
    ever after. *)
Theorem getGame_after_calls cs k s :
  exists found rs s' found',
    getGame k s = Normal (found, s) /\
    run cs s = Normal (rs, s') /\
    getGame k s' = Normal (found', s') /\
    found' = match last_registered k (registrations cs) with
             | Some e => Some e
             | None => found
             end /\
    (is_Some found -> is_Some found').
Proof.
  destruct (run_register_all cs s) as [rs Hrs].
  exists (JSMap.get k s), rs, (register_all (registrations cs) s).
  exists (JSMap.get k (register_all (registrations cs) s)).
  split_and!; [done..| |]; rewrite get_register_all_from.
  - done.
  - by destruct (last_registered k (registrations cs)).
Qed.

(** X5: when the engines registered since the start have pairwise different
    identifiers, [getAllGames] returns them all, in the order of their
    registration. *)
Theorem getAllGames_distinct_identifiers cs :
  NoDup (id <$> registrations cs) ->
  exists rs s,
    run cs gameRegistry = Normal (rs, s) /\
    getAllGames s = Normal (registrations cs, s).
Proof.
  intros Hnd. destruct (run_register_all cs gameRegistry) as [rs Hrs].
  exists rs, (register_all (registrations cs) gameRegistry).
  split; [done|].
  by rewrite getAllGames_Normal, values_register_all_distinct.
Qed.

(** X6: after any calls, [getGame(k)] returns an engine exactly when
    [getAllGames] lists it and its identifier is [k]. *)
Theorem getGame_iff_listed cs :
  exists rs s gs,
    run cs gameRegistry = Normal (rs, s) /\
    getAllGames s = Normal (gs, s) /\
    forall k g, getGame k s = Normal (Some g, s) <-> g ∈ gs /\ id g = k.
Proof.
  destruct (run_register_all cs gameRegistry) as [rs Hrs].
  set (es := registrations cs) in *.
  exists rs, (register_all es gameRegistry).
  exists (JSMap.values (register_all es gameRegistry)).
  split_and!; [done..|]. intros k g. rewrite getGame_Normal. split.
  - intros [= Hget]. apply get_Some_entry in Hget. split.
    + by apply (list_elem_of_fmap_2 snd) in Hget.
    + by eapply entry_register_all.
  - intros [Hin <-]. do 2 f_equal.
    apply list_elem_of_fmap_1 in Hin as [[k' g'] [-> Hin]]. cbn [snd].
    rewrite (entry_register_all _ _ _ Hin).
    apply list_elem_of_lookup_1 in Hin as [i Hi].
    eapply lookup_entry_get; [apply NoDup_register_all | done].
Qed.

(** X7: the calls to [getGame] and [getAllGames] in a sequence, wherever
    they stand, do not change the registry it ends in: it is the one the
    calls to [registerGame] alone end in. *)
Theorem queries_leave_registry cs s :
  exists rs rs' s',
    run cs s = Normal (rs, s') /\
    run (CallRegisterGame <$> registrations cs) s = Normal (rs', s').
Proof.
  destruct (run_register_all cs s) as [rs Hrs].
  destruct (run_register_all (CallRegisterGame <$> registrations cs) s)
    as [rs' Hrs'].
  rewrite registrations_register_calls in Hrs'. eauto.
Qed.

(** X8: two registrations under different identifiers commute as far as
    lookups see: in either order every [getGame] returns the same, and
    [getAllGames] returns the same engines, possibly in another order. *)
Theorem registerGame_commutes (e1 e2 : CEngine) s :
  id e1 <> id e2 ->
  exists s12 s21 gs12 gs21,
    (registerGame e1;; registerGame e2) s = Normal (tt, s12) /\
    (registerGame e2;; registerGame e1) s = Normal (tt, s21) /\
    (forall k, exists found,
       getGame k s12 = Normal (found, s12) /\
       getGame k s21 = Normal (found, s21)) /\
    getAllGames s12 = Normal (gs12, s12) /\
    getAllGames s21 = Normal (gs21, s21) /\
    gs12 ≡ₚ gs21.
Proof.
  intros Hne.
  exists (JSMap.set (id e2) e2 (JSMap.set (id e1) e1 s)).
  exists (JSMap.set (id e1) e1 (JSMap.set (id e2) e2 s)).
  eexists _, _. split_and!; [done..| |done|done|].
  - intros k. eexists. split; [apply getGame_Normal|].
    rewrite getGame_Normal. do 2 f_equal. rewrite !get_set.
    destruct (String.eqb_spec (id e1) k) as [E1|_];
      destruct (String.eqb_spec (id e2) k) as [E2|_]; congruence.
  - unfold Array_from, JSMap.values. apply fmap_Permutation.
    by apply set_commute_Permutation.
Qed.

(** X9: after any calls, [getAllGames] returns the empty array exactly when
    none of them was a [registerGame]. *)
Theorem getAllGames_empty_iff cs :
  exists rs s gs,
    run cs gameRegistry = Normal (rs, s) /\
    getAllGames s = Normal (gs, s) /\
    (gs = [] <-> registrations cs = []).
Proof.
  destruct (run_register_all cs gameRegistry) as [rs Hrs].
  set (es := registrations cs) in *.
  exists rs, (register_all es gameRegistry).
  exists (JSMap.values (register_all es gameRegistry)).
  split_and!; [done..|].
  split; [|by intros ->].
  intros Hnil. apply (f_equal (fmap id)) in Hnil.
  rewrite <- keys_values_register_all, keys_register_all in Hnil.
  destruct es as [|e rest]; [done|]. exfalso.
  assert (id e ∈ first_ids (id <$> e :: rest)) as Hin
    by (apply first_ids_elem, list_elem_of_here).
  rewrite Hnil in Hin. by apply elem_of_nil in Hin.
Qed.

(** X10: when the registered engines have pairwise different identifiers,
    the order of their registrations does not matter to [getGame]. *)
Theorem registration_order_irrelevant cs cs' k :
  NoDup (id <$> registrations cs) ->
  registrations cs ≡ₚ registrations cs' ->
  exists rs s rs' s' found,
    run cs gameRegistry = Normal (rs, s) /\
    run cs' gameRegistry = Normal (rs', s') /\
    getGame k s = Normal (found, s) /\
    getGame k s' = Normal (found, s').
Proof.
  intros Hnd Hperm.
  destruct (run_register_all cs gameRegistry) as [rs Hrs].
  destruct (run_register_all cs' gameRegistry) as [rs' Hrs'].
  set (es := registrations cs) in *. set (es' := registrations cs') in *.
  exists rs, (register_all es gameRegistry).
  exists rs', (register_all es' gameRegistry).
  exists (JSMap.get k (register_all es gameRegistry)).
  split_and!; [done..|].
  rewrite getGame_Normal. do 2 f_equal. rewrite !get_register_all.
  assert (NoDup (id <$> es')) as Hnd' by by rewrite <- Hperm.
  destruct (last_registered k es) as [e|] eqn:Hk.
  - apply last_registered_Some in Hk as [<- Hin].
    rewrite Hperm in Hin. by apply last_registered_distinct.
  - apply last_registered_None in Hk. apply last_registered_None.
    by rewrite <- Hperm.
Qed.

End Composition.

(** * Scenarios of composition *)

(** [checkers] is new to a registry that holds [chessA] and goes after it. *)
Lemma registerGame_fresh_appends_witness :
  getGame (id checkers) [("chess"%string, chessA)]
    = Normal (None, [("chess"%string, chessA)]) /\
  exists gs s',
    getAllGames [("chess"%string, chessA)]
      = Normal (gs, [("chess"%string, chessA)]) /\
    (registerGame checkers;; getAllGames) [("chess"%string, chessA)]
      = Normal (gs ++ [checkers], s').
Proof.
  split; [reflexivity|].
  exact (registerGame_fresh_appends checkers [("chess"%string, chessA)]
           eq_refl).
Defined.

(** [chessA] followed at once by [chessB] is [chessB] alone. *)
Lemma registerGame_absorbs_witness :
  id chessA = id chessB /\
  (registerGame chessA;; registerGame chessB) gameRegistry
    = registerGame chessB gameRegistry.
Proof.
  split; [reflexivity|].
  exact (registerGame_absorbs chessA chessB gameRegistry eq_refl).
Defined.

(** [chessA] and [checkers], with a listing in between, come back in that
    order. *)
Lemma getAllGames_distinct_identifiers_witness :
  NoDup (id <$> registrations
           [CallRegisterGame chessA; CallGetAllGames;
            CallRegisterGame checkers]) /\
  exists rs s,
    run [CallRegisterGame chessA; CallGetAllGames; CallRegisterGame checkers]
      gameRegistry = Normal (rs, s) /\
    getAllGames s
      = Normal (registrations
                  [CallRegisterGame chessA; CallGetAllGames;
                   CallRegisterGame checkers], s).
Proof.
  assert (NoDup (id <$> registrations
                   [CallRegisterGame chessA; CallGetAllGames;
                    CallRegisterGame checkers])) as Hnd.
  { vm_compute. apply NoDup_cons. split.
    - rewrite list_elem_of_singleton. discriminate.
    - apply NoDup_singleton. }
  split; [exact Hnd|].
  exact (getAllGames_distinct_identifiers
           [CallRegisterGame chessA; CallGetAllGames;
            CallRegisterGame checkers] Hnd).
Defined.

(** [chessA] and [checkers] in either order. *)
Lemma registerGame_commutes_witness :
  id chessA <> id checkers /\
  exists s12 s21 gs12 gs21,
    (registerGame chessA;; registerGame checkers) gameRegistry
      = Normal (tt, s12) /\
    (registerGame checkers;; registerGame chessA) gameRegistry
      = Normal (tt, s21) /\
    (forall k, exists found,
       getGame k s12 = Normal (found, s12) /\
       getGame k s21 = Normal (found, s21)) /\
    getAllGames s12 = Normal (gs12, s12) /\
    getAllGames s21 = Normal (gs21, s21) /\
    gs12 ≡ₚ gs21.
Proof.
  assert (id chessA <> id checkers) as Hne by discriminate.
  split; [exact Hne|].
  exact (registerGame_commutes chessA checkers gameRegistry Hne).
Defined.

(** ["chess"] is found the same whether [chessA] or [checkers] was
    registered first. *)
Lemma registration_order_irrelevant_witness :
  NoDup (id <$> registrations
           [CallRegisterGame chessA; CallRegisterGame checkers]) /\
  registrations [CallRegisterGame chessA; CallRegisterGame checkers]
    ≡ₚ registrations [CallRegisterGame checkers; CallRegisterGame chessA] /\
  exists rs s rs' s' found,
    run [CallRegisterGame chessA; CallRegisterGame checkers] gameRegistry
      = Normal (rs, s) /\
    run [CallRegisterGame checkers; CallRegisterGame chessA] gameRegistry
      = Normal (rs', s') /\
    getGame "chess" s = Normal (found, s) /\
    getGame "chess" s' = Normal (found, s').
Proof.
  assert (NoDup (id <$> registrations
                   [CallRegisterGame chessA; CallRegisterGame checkers]))
    as Hnd.
  { vm_compute. apply NoDup_cons. split.
    - rewrite list_elem_of_singleton. discriminate.
    - apply NoDup_singleton. }
  assert (registrations [CallRegisterGame chessA; CallRegisterGame checkers]
          ≡ₚ registrations
               [CallRegisterGame checkers; CallRegisterGame chessA])
    as Hperm by apply Permutation_swap.
  split_and!; [exact Hnd | exact Hperm |].
  exact (registration_order_irrelevant
           [CallRegisterGame chessA; CallRegisterGame checkers]
           [CallRegisterGame checkers; CallRegisterGame chessA]
           "chess" Hnd Hperm).
Defined.
